(** * Alignment renderer of [src/App.tsx]

    A shallow embedding of the [AlignmentBlock] component: the chunk-size
    computation, the loop that cuts the two sequences into chunks, the
    per-character background colours and the copy handler, followed by the
    properties the specification states about them.

    Modelling conventions.
    - A JavaScript string is a [string]: a sequence of code units.  The
      sequences reaching the component passed [AMINO_REGEX] and
      [toUpperCase], so their code units are ASCII; the code does nothing
      with a code unit but compare it, with another one, with the keys of
      [COLOR_MAP] or with the line feed.
    - A JavaScript number holding an integer is a [Z].
    - [undefined] and [null] are [None].
    - The [for] loop is a step function on its state and a runner with fuel:
      the runner answers [None] when the loop is still running after [fuel]
      iterations. *)

From Stdlib Require Import ZArith QArith Qround Ascii String.
From stdpp Require Import base tactics option list gmap strings.

Local Open Scope Z_scope.

(** ** Strings *)

Module JsString.

(** [s.length] *)
Definition len (s : string) : Z := Z.of_nat (String.length s).

(** [s[i]] for an array index [i]: the code unit there, [undefined] out of
    range. *)
Definition at_ (s : string) (i : nat) : option ascii := String.get i s.

(** The relative index of [String.prototype.slice]: a negative argument
    counts from the end, and both ends are clamped to [0 .. len]. *)
Definition clamp (len k : Z) : Z :=
  if k <? 0 then Z.max (len + k) 0 else Z.min k len.

(** [s.slice(start, end)] *)
Definition slice (s : string) (start end_ : Z) : string :=
  let from := clamp (len s) start in
  let to := clamp (len s) end_ in
  if from <? to
  then String.substring (Z.to_nat from) (Z.to_nat (to - from)) s
  else "".

(** The line feed, the one character [/\n/] matches. *)
Definition LF : ascii := "010"%char.

(** [s.replace(/\n/g, "")]: every line feed is dropped. *)
Fixpoint replace_newlines (s : string) : string :=
  match s with
  | EmptyString => EmptyString
  | String c s' =>
      if Ascii.eqb c LF then replace_newlines s'
      else String c (replace_newlines s')
  end.

(** [s.split("")]: the code units, in order. *)
Definition split_chars (s : string) : list ascii := list_ascii_of_string s.

(** Truthiness of a string: only the empty one is falsy. *)
Definition truthy (s : string) : bool :=
  match s with EmptyString => false | String _ _ => true end.

(** Joining a list of strings without a separator. *)
Definition join (l : list string) : string := foldr String.append "" l.

End JsString.

Import JsString.

(** ** The chunk size: [updateChunkSize] *)

(** [useState(20)] *)
Definition initialChunkSize : Z := 20.

(** [boxRef.current?.clientWidth || 0]: [clientWidth] is [None] when the ref
    is not attached; [0] and [undefined] are the falsy cases. *)
Definition measuredWidth (clientWidth : option Z) : Z :=
  match clientWidth with
  | Some w => if w =? 0 then 0 else w
  | None => 0
  end.

(** [Math.floor(width / 19)]: the quotient is taken in the rationals, then
    rounded down.  A [clientWidth] is a 32-bit integer, for which the
    floating-point quotient rounds down to the same integer. *)
Definition newChunkSize (clientWidth : option Z) : Z :=
  Qfloor (inject_Z (measuredWidth clientWidth) / inject_Z 19).

(** The function handed to [setChunkSize]. *)
Definition chunkSizeUpdater (newSize prev : Z) : Z :=
  if bool_decide (prev ≠ newSize) then newSize else prev.

(** [updateChunkSize], on the state cell of [useState]. *)
Definition updateChunkSize (clientWidth : option Z) (chunkSize : Z) : Z :=
  chunkSizeUpdater (newChunkSize clientWidth) chunkSize.

(** ** The chunking loop of [AlignmentBlock] *)

(** The loop variable [i] and the array [chunks]. *)
Record loop_state := LoopState {
  loop_i : Z;
  loop_chunks : list (string * string)
}.

(** [let i = 0], after [const chunks = []]. *)
Definition loop_init : loop_state := LoopState 0 [].

Section Chunks.

Variables seq1 seq2 : string.
Variable chunkSize : Z.

(** [i < seq1.length] *)
Definition loop_cond (st : loop_state) : bool := loop_i st <? len seq1.

(** The body, [chunks.push(...)], then the update [i += chunkSize]. *)
Definition loop_body (st : loop_state) : loop_state :=
  let i := loop_i st in
  LoopState (i + chunkSize)
    (loop_chunks st ++
       [(slice seq1 i (i + chunkSize), slice seq2 i (i + chunkSize))]).

(** One turn of the loop; [None] when the condition fails and the loop is
    left. *)
Definition loop_step (st : loop_state) : option loop_state :=
  if loop_cond st then Some (loop_body st) else None.

(** The state after [k] turns, when the loop makes that many. *)
Fixpoint loop_iter (k : nat) (st : loop_state) : option loop_state :=
  match k with
  | O => Some st
  | S k' =>
      match loop_step st with
      | Some st' => loop_iter k' st'
      | None => None
      end
  end.

(** The loop, run for at most [fuel] turns: the final [chunks], or [None]
    when it has not been left by then. *)
Fixpoint loop_run (fuel : nat) (st : loop_state)
  : option (list (string * string)) :=
  if loop_cond st then
    match fuel with
    | O => None
    | S fuel' => loop_run fuel' (loop_body st)
    end
  else Some (loop_chunks st).

End Chunks.

(** The [chunks] array a render of [AlignmentBlock] computes. *)
Definition chunks (fuel : nat) (seq1 seq2 : string) (chunkSize : Z)
  : option (list (string * string)) :=
  loop_run seq1 seq2 chunkSize fuel loop_init.

(** ** Colours *)

Definition COLOR_MAP : gmap string string :=
  list_to_map [
    ("C", "#FFEA00");
    ("G", "#C4C4C4");
    ("D", "#FC9CAC");
    ("E", "#FC9CAC");
    ("K", "#BB99FF");
    ("R", "#BB99FF");
    ("S", "#80BFFF");
    ("T", "#80BFFF");
    ("H", "#80BFFF");
    ("Q", "#80BFFF");
    ("N", "#80BFFF");
    ("A", "#67E4A6");
    ("I", "#67E4A6");
    ("L", "#67E4A6");
    ("M", "#67E4A6");
    ("F", "#67E4A6");
    ("W", "#67E4A6");
    ("Y", "#67E4A6");
    ("V", "#67E4A6");
    ("P", "#67E4A6")
  ].

(** The one-unit string [split("")] hands to the callback. *)
Definition char_string (char : ascii) : string := String char EmptyString.

(** [COLOR_MAP[char] || "transparent"] *)
Definition seq1_backgroundColor (char : ascii) : string :=
  match COLOR_MAP !! char_string char with
  | Some color => if truthy color then color else "transparent"
  | None => "transparent"
  end.

(** [s2[i] !== s1[i]], on the two strings of a chunk and an index into
    them. *)
Definition mismatch (s1 s2 : string) (i : nat) : bool :=
  bool_decide (at_ s2 i ≠ at_ s1 i).

(** [s2[i] !== s1[i] ? "#ffb6b6" : "transparent"] *)
Definition seq2_backgroundColor (s1 s2 : string) (i : nat) : string :=
  if mismatch s1 s2 i then "#ffb6b6" else "transparent".

(** A rendered [span]: its background colour and its one character. *)
Record span := Span {
  backgroundColor : string;
  text : ascii
}.

(** [s1.split("").map((char, i) => ...)] *)
Definition render_s1 (s1 : string) : list span :=
  map (fun char => Span (seq1_backgroundColor char) char) (split_chars s1).

(** [s2.split("").map((char, i) => ...)] *)
Definition render_s2 (s1 s2 : string) : list span :=
  imap (fun i char => Span (seq2_backgroundColor s1 s2 i) char)
    (split_chars s2).

(** [chunks.map(([s1, s2], idx) => ...)]: the two rows of every chunk. *)
Definition render (cs : list (string * string))
  : list (list span * list span) :=
  map (fun '(s1, s2) => (render_s1 s1, render_s2 s1 s2)) cs.

(** ** Copying: [handleMouseUp] *)

(** What the handler does to the outside world. *)
Inductive effect :=
| WriteText (data : string)   (* [navigator.clipboard.writeText(data)] *)
| OnCopy.                     (* [onCopy()], which raises the notification *)

(** [getSelection] is the text of [window.getSelection()], [None] when that
    call answers [null]. *)
Definition handleMouseUp (getSelection : option string) : list effect :=
  let selection := replace_newlines <$> getSelection in
  match selection with
  | Some s => if truthy s then [WriteText s; OnCopy] else []
  | None => []
  end.

(** ** The form of [App]: validation and [onSubmit] *)

(** The upper-case form of an ASCII code unit: [a] .. [z] become [A] .. [Z],
    the others stay. *)
Definition upper_char (c : ascii) : ascii :=
  let n := nat_of_ascii c in
  if ((97 <=? n) && (n <=? 122))%nat then ascii_of_nat (n - 32) else c.

(** [s.toUpperCase()] on a string of ASCII code units, which the strings
    [onSubmit] is given are: they passed [AMINO_REGEX]. *)
Fixpoint toUpperCase (s : string) : string :=
  match s with
  | EmptyString => EmptyString
  | String c s' => String (upper_char c) (toUpperCase s')
  end.

(** The class [[ARNDCEQGHILKMFPSTWYV-]]. *)
Definition amino_class : list ascii :=
  split_chars "ARNDCEQGHILKMFPSTWYV-".

(** A code unit matches the class under the flag [i] when its canonical,
    upper-case, form is in the class.  The flag never folds a code unit from
    128 on onto an ASCII one, and [upper_char] leaves those as they are. *)
Definition class_matches (c : ascii) : bool :=
  bool_decide (upper_char c ∈ amino_class).

(** [AMINO_REGEX.test(s)] for [/^[ARNDCEQGHILKMFPSTWYV-]+$/i]: the whole of
    [s] is one or more code units of the class. *)
Definition AMINO_REGEX_test (s : string) : bool :=
  truthy s && forallb class_matches (split_chars s).

(** The rules of both fields, [{ required: true, pattern: AMINO_REGEX }]. *)
Definition field_valid (value : string) : bool :=
  truthy value && AMINO_REGEX_test value.

(** [seq1.length === seq2.length] *)
Definition sameLength (seq1 seq2 : string) : bool := len seq1 =? len seq2.

(** The button's [disabled={!sameLength || !seq1 || !seq2}]. *)
Definition disabled (seq1 seq2 : string) : bool :=
  negb (sameLength seq1 seq2) || negb (truthy seq1) || negb (truthy seq2).

(** The value of the state [aligned] once set. *)
Record aligned := Aligned {
  aligned_seq1 : string;
  aligned_seq2 : string
}.

(** [onSubmit]: the argument of [setAligned]. *)
Definition onSubmit (data_seq1 data_seq2 : string) : aligned :=
  Aligned (toUpperCase data_seq1) (toUpperCase data_seq2).

(** ** The specification's own words *)

(** "true when [seq2[i] != seq1[i]]", on the full strings and a position in
    them. *)
Definition MismatchFlag (seq1 seq2 : string) (i : nat) : bool :=
  bool_decide (at_ seq2 i ≠ at_ seq1 i).

(** "Returns a fixed mismatch color if [seq2[index] != seq1[index]], else
    transparent." *)
Definition colorForSeq2Char (index : nat) (seq1 seq2 : string) : string :=
  if MismatchFlag seq1 seq2 index then "#ffb6b6" else "transparent".

(** "all line-break characters": of the line terminators of JavaScript, a
    string of 8-bit code units can hold the line feed and the carriage
    return. *)
Definition CR : ascii := "013"%char.

Definition line_break (c : ascii) : bool := Ascii.eqb c LF || Ascii.eqb c CR.

(** "the 20 standard letters" *)
Definition amino_letters : list ascii :=
  split_chars "ARNDCEQGHILKMFPSTWYV".

(** A hex colour: [#] and six hexadecimal digits. *)
Definition is_hex_digit (c : ascii) : bool :=
  let n := nat_of_ascii c in
  ((48 <=? n) && (n <=? 57) || (65 <=? n) && (n <=? 70)
   || (97 <=? n) && (n <=? 102))%nat.

Definition is_hex_color (s : string) : bool :=
  match s with
  | String "#" digits =>
      (String.length digits =? 6)%nat && forallb is_hex_digit (split_chars digits)
  | _ => false
  end.

(** [ceil(a / b)] for a positive [b]. *)
Definition ceil_div (a b : Z) : Z := (a + b - 1) / b.

(** "each of length [chunkSize] except the final pair which holds the
    remainder ([length mod chunkSize], or [chunkSize] if it divides
    evenly)": the length of pair [k] out of [count]. *)
Definition expected_length (length chunkSize : Z) (count k : nat) : Z :=
  if (S k <? count)%nat then chunkSize
  else if length mod chunkSize =? 0 then chunkSize
  else length mod chunkSize.

(** ** The chunks in closed form *)

(** The pair pushed in turn [k] of the loop, where [i = k * chunkSize]. *)
Definition chunk_at (seq1 seq2 : string) (chunkSize : Z) (k : nat)
  : string * string :=
  let i := Z.of_nat k * chunkSize in
  (slice seq1 i (i + chunkSize), slice seq2 i (i + chunkSize)).

(** The number of turns the loop makes for a positive [chunkSize]. *)
Definition chunk_count (seq1 : string) (chunkSize : Z) : nat :=
  Z.to_nat (ceil_div (len seq1) chunkSize).

(** * Properties *)

(** ** Strings as lists of code units *)

Section StringFacts.

Implicit Types s t : string.

Lemma length_split_chars s : length (split_chars s) = String.length s.
Proof. induction s as [|c s IH]; simpl; [done | by rewrite IH]. Qed.

Lemma at_split_chars s (i : nat) : at_ s i = split_chars s !! i.
Proof.
  unfold at_. revert i.
  induction s as [|c s IH]; intros [|i]; simpl; auto.
Qed.

Lemma split_chars_substring (n m : nat) s :
  split_chars (String.substring n m s) = take m (drop n (split_chars s)).
Proof.
  revert n m. induction s as [|c s IH]; intros [|n] [|m]; simpl; auto.
  f_equal. apply (IH 0%nat m).
Qed.

Lemma split_chars_append s t :
  split_chars (String.append s t) = split_chars s ++ split_chars t.
Proof. induction s as [|c s IH]; simpl; [done | by rewrite IH]. Qed.

Lemma split_chars_inj s t : split_chars s = split_chars t → s = t.
Proof.
  intros H. rewrite <- (string_of_list_ascii_of_string s).
  rewrite <- (string_of_list_ascii_of_string t).
  unfold split_chars in H. by rewrite H.
Qed.

Lemma split_chars_join (l : list string) :
  split_chars (join l) = concat (map split_chars l).
Proof.
  induction l as [|s l IH]; simpl; [done |].
  by rewrite split_chars_append, IH.
Qed.

Lemma len_split_chars s : len s = Z.of_nat (length (split_chars s)).
Proof. unfold len. by rewrite length_split_chars. Qed.

(** A slice between two non-negative positions: drop up to the first, keep
    up to the second. *)
Lemma split_chars_slice s (a b : Z) :
  0 ≤ a → 0 ≤ b →
  split_chars (slice s a b)
  = take (Z.to_nat (b - a)) (drop (Z.to_nat a) (split_chars s)).
Proof.
  intros Ha Hb. unfold slice, clamp.
  pose proof (len_split_chars s) as Hlen.
  destruct (Z.ltb_spec a 0) as [?|_]; [lia |].
  destruct (Z.ltb_spec b 0) as [?|_]; [lia |].
  destruct (Z.ltb_spec (Z.min a (len s)) (Z.min b (len s))) as [Hlt|Hge].
  - rewrite split_chars_substring.
    replace (Z.to_nat (Z.min a (len s))) with (Z.to_nat a) by lia.
    destruct (Z.le_gt_cases b (len s)) as [Hb'|Hb'].
    + by replace (Z.min b (len s) - Z.min a (len s)) with (b - a) by lia.
    + rewrite !take_ge; [done | rewrite length_drop; lia ..].
  - simpl. destruct (Z.le_gt_cases (len s) a) as [Ha'|Ha'].
    + rewrite drop_ge; [by rewrite take_nil | lia].
    + by replace (Z.to_nat (b - a)) with 0%nat by lia.
Qed.

End StringFacts.

(** ** The loop for a positive chunk size *)

Lemma loop_run_unfold seq1 seq2 chunkSize fuel st :
  loop_run seq1 seq2 chunkSize fuel st
  = if loop_cond seq1 st then
      match fuel with
      | O => None
      | S fuel' => loop_run seq1 seq2 chunkSize fuel' (loop_body seq1 seq2 chunkSize st)
      end
    else Some (loop_chunks st).
Proof. by destruct fuel. Qed.

(** [ceil_div a b] is the least number of [b]-wide pieces covering [a]. *)
Lemma ceil_div_bounds (a b : Z) :
  0 < b → (ceil_div a b - 1) * b < a ≤ ceil_div a b * b.
Proof.
  intros Hb. unfold ceil_div.
  pose proof (Z.div_mod (a + b - 1) b) as Hdm.
  pose proof (Z.mod_pos_bound (a + b - 1) b Hb). lia.
Qed.

Lemma ceil_div_unique (a b c : Z) :
  0 < b → (c - 1) * b < a ≤ c * b → ceil_div a b = c.
Proof.
  intros Hb Hc. pose proof (ceil_div_bounds a b Hb). nia.
Qed.

Lemma ceil_div_nonneg (a b : Z) : 0 < b → 0 ≤ a → 0 ≤ ceil_div a b.
Proof. intros Hb Ha. pose proof (ceil_div_bounds a b Hb). nia. Qed.

Section ChunkFacts.

Variables seq1 seq2 : string.
Variable n : Z.
Hypothesis Hn : 0 < n.

Local Abbreviation count := (chunk_count seq1 n).
Local Abbreviation chunk := (chunk_at seq1 seq2 n).

Lemma chunk_count_bounds :
  (Z.of_nat count - 1) * n < len seq1 ≤ Z.of_nat count * n.
Proof.
  unfold chunk_count.
  assert (0 ≤ len seq1) by (unfold len; lia).
  pose proof (ceil_div_bounds (len seq1) n Hn).
  pose proof (ceil_div_nonneg (len seq1) n Hn). lia.
Qed.

(** From turn [k] on, with [d] turns to go, the loop pushes the chunks
    [k .. k + d - 1] and is left. *)
Lemma loop_run_from (d fuel k : nat) (acc : list (string * string)) :
  (d ≤ fuel)%nat →
  len seq1 ≤ (Z.of_nat k + Z.of_nat d) * n →
  (d = 0%nat ∨ (Z.of_nat k + Z.of_nat d - 1) * n < len seq1) →
  loop_run seq1 seq2 n fuel (LoopState (Z.of_nat k * n) acc)
  = Some (acc ++ map chunk (seq k d)).
Proof.
  revert fuel k acc. induction d as [|d IH]; intros fuel k acc Hfuel Hhi Hlo.
  - rewrite loop_run_unfold. unfold loop_cond; simpl.
    destruct (Z.ltb_spec (Z.of_nat k * n) (len seq1)); [lia |].
    by rewrite app_nil_r.
  - destruct Hlo as [?|Hlo]; [done |].
    destruct fuel as [|fuel]; [lia |].
    rewrite loop_run_unfold. unfold loop_cond; simpl.
    destruct (Z.ltb_spec (Z.of_nat k * n) (len seq1)); [| nia].
    unfold loop_body; simpl.
    replace (Z.of_nat k * n + n) with (Z.of_nat (S k) * n) by lia.
    rewrite IH; [| lia | lia | right; lia].
    rewrite <- app_assoc. simpl. do 3 f_equal.
    unfold chunk_at. by replace (Z.of_nat (S k) * n) with (Z.of_nat k * n + n) by lia.
Qed.

(** With fuel for [chunk_count] turns, the loop is left with the chunks
    [0 .. chunk_count - 1]. *)
Lemma chunks_closed_form (fuel : nat) :
  (count ≤ fuel)%nat →
  chunks fuel seq1 seq2 n = Some (map chunk (seq 0 count)).
Proof.
  intros Hfuel. pose proof chunk_count_bounds as Hc.
  unfold chunks, loop_init.
  change 0 with (Z.of_nat 0 * n).
  rewrite (loop_run_from count); [done | done | lia |].
  destruct count; [by left | right; lia].
Qed.

Lemma chunk_count_le_length : (count ≤ String.length seq1)%nat.
Proof. pose proof chunk_count_bounds. unfold len in *. nia. Qed.

(** The code units of one side of chunk [k]. *)
Lemma split_chars_chunk_slice (s : string) (k : nat) :
  split_chars (slice s (Z.of_nat k * n) (Z.of_nat k * n + n))
  = take (Z.to_nat n) (drop (k * Z.to_nat n) (split_chars s)).
Proof.
  rewrite split_chars_slice by nia.
  replace (Z.of_nat k * n + n - Z.of_nat k * n) with n by lia.
  by replace (Z.to_nat (Z.of_nat k * n)) with (k * Z.to_nat n)%nat by nia.
Qed.

(** The first [m] slices, joined, are the first [m * n] code units. *)
Lemma join_slices (s : string) (m : nat) :
  concat (map (λ k, split_chars (slice s (Z.of_nat k * n) (Z.of_nat k * n + n)))
            (seq 0 m))
  = take (m * Z.to_nat n) (split_chars s).
Proof.
  induction m as [|m IH]; [done |].
  rewrite seq_S, map_app, concat_app, IH. simpl.
  rewrite app_nil_r, split_chars_chunk_slice.
  rewrite take_take_drop. f_equal. lia.
Qed.

(** A code unit of chunk [k] is the code unit of the whole string at the
    chunk's offset. *)
Lemma at_chunk_slice (s : string) (k j : nat) :
  Z.of_nat j < n →
  at_ (slice s (Z.of_nat k * n) (Z.of_nat k * n + n)) j
  = at_ s (k * Z.to_nat n + j).
Proof.
  intros Hj. rewrite !at_split_chars, split_chars_chunk_slice.
  rewrite lookup_take_lt by lia. apply lookup_drop.
Qed.

Lemma len_chunk_slice (s : string) (k : nat) :
  len (slice s (Z.of_nat k * n) (Z.of_nat k * n + n))
  = Z.max 0 (Z.min n (len s - Z.of_nat k * n)).
Proof.
  rewrite !len_split_chars, split_chars_chunk_slice.
  rewrite length_take, length_drop. nia.
Qed.

End ChunkFacts.

(** More fuel than the loop needs changes nothing. *)
Lemma chunks_fuel_irrelevant (seq1 seq2 : string) (n : Z) (fuel fuel' : nat) :
  0 < n → (String.length seq1 ≤ fuel)%nat → (String.length seq1 ≤ fuel')%nat →
  chunks fuel seq1 seq2 n = chunks fuel' seq1 seq2 n.
Proof.
  intros Hn Hf Hf'. pose proof (chunk_count_le_length seq1 n Hn).
  rewrite !chunks_closed_form by lia. done.
Qed.

Lemma split_chars_join_fst (seq1 seq2 : string) (n : Z) (l : list nat) :
  split_chars (join (map (chunk_at seq1 seq2 n) l).*1)
  = concat (map (λ k, split_chars
                        (slice seq1 (Z.of_nat k * n) (Z.of_nat k * n + n))) l).
Proof.
  induction l as [|k l IH]; [done |].
  simpl. rewrite split_chars_append. f_equal. exact IH.
Qed.

Lemma split_chars_join_snd (seq1 seq2 : string) (n : Z) (l : list nat) :
  split_chars (join (map (chunk_at seq1 seq2 n) l).*2)
  = concat (map (λ k, split_chars
                        (slice seq2 (Z.of_nat k * n) (Z.of_nat k * n + n))) l).
Proof.
  induction l as [|k l IH]; [done |].
  simpl. rewrite split_chars_append. f_equal. exact IH.
Qed.

Lemma join_chunks_fst (seq1 seq2 : string) (n : Z) :
  0 < n →
  join (map (chunk_at seq1 seq2 n) (seq 0 (chunk_count seq1 n))).*1 = seq1.
Proof.
  intros Hn. apply split_chars_inj.
  rewrite split_chars_join_fst, join_slices by done.
  apply take_ge. pose proof (chunk_count_bounds seq1 n Hn).
  rewrite len_split_chars in *. nia.
Qed.

Lemma join_chunks_snd (seq1 seq2 : string) (n : Z) :
  0 < n → String.length seq1 = String.length seq2 →
  join (map (chunk_at seq1 seq2 n) (seq 0 (chunk_count seq1 n))).*2 = seq2.
Proof.
  intros Hn Hlen. apply split_chars_inj.
  rewrite split_chars_join_snd, join_slices by done.
  apply take_ge. pose proof (chunk_count_bounds seq1 n Hn).
  unfold len in *. rewrite length_split_chars, <- Hlen. nia.
Qed.

(** C1. For two strings of equal length and a positive chunk size the loop
    is left (fuel for [seq1.length] turns is enough) and the chunks it built
    give back both strings: the first components joined in order are [seq1],
    the second components joined in order are [seq2]. *)
Theorem chunks_round_trip (seq1 seq2 : string) (chunkSize : Z) (fuel : nat) :
  String.length seq1 = String.length seq2 →
  0 < chunkSize →
  (String.length seq1 ≤ fuel)%nat →
  ∃ cs, chunks fuel seq1 seq2 chunkSize = Some cs
        ∧ join cs.*1 = seq1
        ∧ join cs.*2 = seq2.
Proof.
  intros Hlen Hn Hfuel.
  pose proof (chunk_count_le_length seq1 chunkSize Hn).
  eexists. split; [apply chunks_closed_form; [done | lia] |].
  split; [by apply join_chunks_fst | by apply join_chunks_snd].
Qed.

Lemma chunks_round_trip_witness :
  ∃ cs, chunks 4 "ACDE" "ACDF" 2 = Some cs
        ∧ join cs.*1 = "ACDE"%string
        ∧ join cs.*2 = "ACDF"%string.
Proof. apply (chunks_round_trip "ACDE" "ACDF" 2 4); [reflexivity | lia | simpl; lia]. Defined.

(** ** Chunk count and chunk lengths *)

Lemma lookup_map_seq {A} (f : nat → A) (m k : nat) (x : A) :
  map f (seq 0 m) !! k = Some x ↔ (k < m)%nat ∧ x = f k.
Proof.
  change (map f (seq 0 m)) with (f <$> seq 0 m).
  rewrite list_lookup_fmap, fmap_Some. split.
  - intros (j & Hj & ->). apply lookup_seq in Hj as [-> ?]. done.
  - intros [Hk ->]. exists k. split; [| done]. by apply lookup_seq.
Qed.

(** The length of chunk [k] of [count], from the bounds on [count]. *)
Lemma expected_length_bounds (length n : Z) (count k : nat) :
  0 < n → (k < count)%nat →
  (Z.of_nat count - 1) * n < length ≤ Z.of_nat count * n →
  Z.max 0 (Z.min n (length - Z.of_nat k * n))
  = expected_length length n count k.
Proof.
  intros Hn Hk Hc. unfold expected_length.
  destruct (Nat.ltb_spec (S k) count) as [Hlt|Hge]; [nia |].
  assert (k = (count - 1)%nat) as -> by lia.
  pose proof (Z.div_mod length n) as Hdm.
  pose proof (Z.mod_pos_bound length n Hn) as Hr.
  set (q := length / n) in *. set (r := length mod n) in *.
  destruct (Z.eqb_spec r 0) as [Hr0|Hr0].
  - assert (q = Z.of_nat count) by nia. nia.
  - assert (q = Z.of_nat count - 1) by nia. nia.
Qed.

(** C2. For two strings of equal length and a positive chunk size the loop
    builds [ceil(seq1.length / chunkSize)] chunks; both strings of every
    chunk but the last have [chunkSize] code units, and both strings of the
    last have [seq1.length mod chunkSize] of them, or [chunkSize] when that
    remainder is 0. *)
Theorem chunks_count_and_lengths
    (seq1 seq2 : string) (chunkSize : Z) (fuel : nat) :
  String.length seq1 = String.length seq2 →
  0 < chunkSize →
  (String.length seq1 ≤ fuel)%nat →
  ∃ cs, chunks fuel seq1 seq2 chunkSize = Some cs
        ∧ Z.of_nat (length cs) = ceil_div (len seq1) chunkSize
        ∧ ∀ (k : nat) (a b : string),
            cs !! k = Some (a, b) →
            len a = expected_length (len seq1) chunkSize (length cs) k
            ∧ len b = expected_length (len seq1) chunkSize (length cs) k.
Proof.
  intros Hlen Hn Hfuel.
  pose proof (chunk_count_le_length seq1 chunkSize Hn) as Hle.
  pose proof (chunk_count_bounds seq1 chunkSize Hn) as Hc.
  assert (len seq2 = len seq1) as Hlen' by (unfold len; lia).
  eexists. split; [apply chunks_closed_form; [done | lia] |].
  rewrite length_map, length_seq. split.
  - unfold chunk_count. apply Z2Nat.id, ceil_div_nonneg; [done |].
    unfold len; lia.
  - intros k a b [Hk Heq]%lookup_map_seq.
    unfold chunk_at in Heq. injection Heq as -> ->.
    rewrite !len_chunk_slice, Hlen' by done.
    split; by apply expected_length_bounds.
Qed.

Lemma chunks_count_and_lengths_witness :
  ∃ cs, chunks 5 "ACDEG" "ACDFG" 2 = Some cs
        ∧ Z.of_nat (length cs) = ceil_div (len "ACDEG") 2
        ∧ ∀ (k : nat) (a b : string),
            cs !! k = Some (a, b) →
            len a = expected_length (len "ACDEG") 2 (length cs) k
            ∧ len b = expected_length (len "ACDEG") 2 (length cs) k.
Proof.
  apply (chunks_count_and_lengths "ACDEG" "ACDFG" 2 5);
    [reflexivity | lia | simpl; lia].
Defined.

(** ** Mismatches do not depend on the chunking *)

(** The chunk holding position [i], and the offset of [i] inside it. *)
Lemma chunk_of_position (seq1 : string) (n : Z) (i : nat) :
  0 < n → (i < String.length seq1)%nat →
  let k := Z.to_nat (Z.of_nat i / n) in
  let j := Z.to_nat (Z.of_nat i mod n) in
  (k < chunk_count seq1 n)%nat ∧ Z.of_nat j < n ∧ (k * Z.to_nat n + j)%nat = i.
Proof.
  intros Hn Hi k j.
  pose proof (chunk_count_bounds seq1 n Hn) as Hc. unfold len in Hc.
  pose proof (Z.div_mod (Z.of_nat i) n) as Hdm.
  pose proof (Z.mod_pos_bound (Z.of_nat i) n Hn) as Hr.
  assert (0 ≤ Z.of_nat i / n) by (apply Z.div_pos; lia).
  subst k j. split; [nia | split; [lia | nia]].
Qed.

(** C3. For two strings of equal length, a positive chunk size and a
    position [i] of the strings, the mismatch test of the rendered span, made
    on the chunk holding [i] (chunk [i / chunkSize]) at the offset of [i] in
    it ([i mod chunkSize]), is the mismatch flag of the full strings at [i];
    so the span shows the character [seq2[i]] on the colour the full strings
    give it. *)
Theorem mismatch_chunk_invariant
    (seq1 seq2 : string) (chunkSize : Z) (fuel i : nat) :
  String.length seq1 = String.length seq2 →
  0 < chunkSize →
  (String.length seq1 ≤ fuel)%nat →
  (i < String.length seq1)%nat →
  let k := Z.to_nat (Z.of_nat i / chunkSize) in
  let j := Z.to_nat (Z.of_nat i mod chunkSize) in
  ∃ cs s1 s2 c,
    chunks fuel seq1 seq2 chunkSize = Some cs
    ∧ cs !! k = Some (s1, s2)
    ∧ mismatch s1 s2 j = MismatchFlag seq1 seq2 i
    ∧ at_ seq2 i = Some c
    ∧ render cs !! k = Some (render_s1 s1, render_s2 s1 s2)
    ∧ render_s2 s1 s2 !! j = Some (Span (colorForSeq2Char i seq1 seq2) c).
Proof.
  intros Hlen Hn Hfuel Hi k j.
  pose proof (chunk_count_le_length seq1 chunkSize Hn) as Hle.
  destruct (chunk_of_position seq1 chunkSize i Hn Hi) as (Hk & Hj & Hkj).
  fold k j in Hk, Hj, Hkj.
  assert (is_Some (at_ seq2 i)) as [c Hc].
  { rewrite at_split_chars. apply lookup_lt_is_Some.
    rewrite length_split_chars. lia. }
  assert (∀ s, at_ (slice s (Z.of_nat k * chunkSize)
                      (Z.of_nat k * chunkSize + chunkSize)) j = at_ s i) as Hat.
  { intros s. rewrite at_chunk_slice by done. by rewrite Hkj. }
  assert (mismatch (chunk_at seq1 seq2 chunkSize k).1
            (chunk_at seq1 seq2 chunkSize k).2 j
          = MismatchFlag seq1 seq2 i) as Hm.
  { unfold mismatch, MismatchFlag, chunk_at. simpl. by rewrite !Hat. }
  eexists _, _, _, c.
  split; [apply chunks_closed_form; [done | lia] |].
  split; [by apply lookup_map_seq |].
  split; [exact Hm |]. split; [exact Hc |].
  split.
  { unfold render. change (map ?f ?l) with (f <$> l).
    rewrite !list_lookup_fmap, lookup_seq_lt by done. done. }
  unfold render_s2. rewrite list_lookup_imap, <- at_split_chars, Hat, Hc.
  simpl. unfold seq2_backgroundColor, colorForSeq2Char.
  simpl in Hm. by rewrite Hm.
Qed.

Lemma mismatch_chunk_invariant_witness :
  ∃ cs s1 s2 c,
    chunks 4 "ACDE" "ACDF" 2 = Some cs
    ∧ cs !! 1%nat = Some (s1, s2)
    ∧ mismatch s1 s2 1 = MismatchFlag "ACDE" "ACDF" 3
    ∧ at_ "ACDF" 3 = Some c
    ∧ render cs !! 1%nat = Some (render_s1 s1, render_s2 s1 s2)
    ∧ render_s2 s1 s2 !! 1%nat
      = Some (Span (colorForSeq2Char 3 "ACDE" "ACDF") c).
Proof.
  apply (mismatch_chunk_invariant "ACDE" "ACDF" 2 4 3);
    [reflexivity | lia | simpl; lia | simpl; lia].
Defined.

(** ** The loop for chunk size 0 and for empty strings *)

Lemma slice_empty_range (s : string) : slice s 0 0 = ""%string.
Proof.
  unfold slice, clamp. simpl.
  destruct (Z.ltb_spec (Z.min 0 (len s)) (Z.min 0 (len s))); [lia | done].
Qed.

Lemma loop_cond_nonempty (seq1 : string) (acc : list (string * string)) :
  seq1 ≠ ""%string → loop_cond seq1 (LoopState 0 acc) = true.
Proof.
  intros Hne. unfold loop_cond, len. simpl.
  destruct seq1; [done |]. simpl. apply Z.ltb_lt. lia.
Qed.

(** With step 0 a turn of the loop leaves [i] at 0 and pushes a pair of
    empty strings. *)
Lemma loop_body_zero_step (seq1 seq2 : string) (acc : list (string * string)) :
  loop_body seq1 seq2 0 (LoopState 0 acc)
  = LoopState 0 (acc ++ [(""%string, ""%string)]).
Proof. unfold loop_body. simpl. by rewrite !slice_empty_range. Qed.

(** On a non-empty [seq1] and with chunk size 0 the loop makes every number
    of turns: after [k] of them [i] is still 0 and [chunks] holds [k] more
    pairs of empty strings. *)
Lemma loop_iter_zero_step (seq1 seq2 : string) (k : nat)
    (acc : list (string * string)) :
  seq1 ≠ ""%string →
  loop_iter seq1 seq2 0 k (LoopState 0 acc)
  = Some (LoopState 0 (acc ++ replicate k (""%string, ""%string))).
Proof.
  intros Hne. revert acc. induction k as [|k IH]; intros acc; simpl.
  - by rewrite app_nil_r.
  - unfold loop_step. rewrite loop_cond_nonempty by done.
    rewrite loop_body_zero_step, IH. by rewrite <- app_assoc.
Qed.

(** So no amount of fuel sees the loop left. *)
Lemma loop_run_zero_step (seq1 seq2 : string) (fuel : nat)
    (acc : list (string * string)) :
  seq1 ≠ ""%string →
  loop_run seq1 seq2 0 fuel (LoopState 0 acc) = None.
Proof.
  intros Hne. revert acc. induction fuel as [|fuel IH]; intros acc;
    rewrite loop_run_unfold, loop_cond_nonempty by done; [done |].
  rewrite loop_body_zero_step. apply IH.
Qed.

(** C4. A container narrower than one character cell (here not measured at
    all: width 0) sets the chunk size to 0, and with that chunk size the loop
    over the non-empty sequence ["A"] is not left: whatever the fuel, it
    is still running, [i] is still 0 and [chunks] has grown by one pair of
    empty strings each turn. *)
Theorem chunks_zero_chunk_size_never_left :
  updateChunkSize (Some 0) initialChunkSize = 0
  ∧ ∀ fuel : nat,
      chunks fuel "A" "A" 0 = None
      ∧ loop_iter "A" "A" 0 fuel loop_init
        = Some (LoopState 0 (replicate fuel (""%string, ""%string))).
Proof.
  split; [reflexivity |]. intros fuel. split.
  - by apply loop_run_zero_step.
  - by apply (loop_iter_zero_step "A" "A" fuel []).
Qed.

(** C10. On two empty strings the loop condition fails at once, whatever the
    chunk size (0 and negative ones too): no turn is made and [chunks] is
    empty.  With chunk size 0 the loop makes a first turn exactly when
    [seq1] is not empty. *)
Theorem chunks_of_empty_strings :
  (∀ (chunkSize : Z) (fuel : nat),
      loop_step "" "" chunkSize loop_init = None
      ∧ chunks fuel "" "" chunkSize = Some [])
  ∧ (∀ seq1 seq2 : string,
      is_Some (loop_step seq1 seq2 0 loop_init) ↔ seq1 ≠ ""%string).
Proof.
  split.
  - intros chunkSize fuel. split; [reflexivity |]. by destruct fuel.
  - intros seq1 seq2. unfold loop_step, loop_init. split.
    + intros [st Hst] ->. discriminate Hst.
    + intros Hne. by rewrite loop_cond_nonempty.
Qed.

(** ** The chunk size *)

Lemma newChunkSize_div (w : Z) : newChunkSize (Some w) = w / 19.
Proof.
  unfold newChunkSize, measuredWidth.
  destruct (Z.eqb_spec w 0) as [->|_]; [reflexivity |].
  unfold Qdiv, Qmult, Qinv, inject_Z, Qfloor. simpl.
  by rewrite Z.mul_1_r.
Qed.

(** C5. For a width [w ≥ 0] the new chunk size is [floor(w / 19)], the one
    integer [q] with [19 q ≤ w < 19 (q + 1)]; it is a function of the width
    alone, and for width 0 it is 0. *)
Theorem newChunkSize_floor (w : Z) :
  0 ≤ w →
  newChunkSize (Some w) = w / 19
  ∧ 19 * newChunkSize (Some w) ≤ w < 19 * (newChunkSize (Some w) + 1)
  ∧ (∀ q : Z, 19 * q ≤ w < 19 * (q + 1) → q = newChunkSize (Some w))
  ∧ newChunkSize (Some 0) = 0.
Proof.
  intros Hw. rewrite newChunkSize_div.
  pose proof (Z.div_mod w 19) as Hdm.
  pose proof (Z.mod_pos_bound w 19) as Hr.
  split; [done |]. split; [lia |]. split; [intros q Hq; lia | reflexivity].
Qed.

Lemma newChunkSize_floor_witness :
  newChunkSize (Some 400) = 400 / 19
  ∧ 19 * newChunkSize (Some 400) ≤ 400 < 19 * (newChunkSize (Some 400) + 1)
  ∧ (∀ q : Z, 19 * q ≤ 400 < 19 * (q + 1) → q = newChunkSize (Some 400))
  ∧ newChunkSize (Some 0) = 0.
Proof. apply (newChunkSize_floor 400). lia. Defined.

(** The function given to [setChunkSize] always answers the new size. *)
Lemma chunkSizeUpdater_new (newSize prev : Z) :
  chunkSizeUpdater newSize prev = newSize.
Proof. unfold chunkSizeUpdater. case_bool_decide; [done | by destruct (decide (prev = newSize))]. Qed.

Lemma updateChunkSize_idempotent (clientWidth : option Z) (chunkSize : Z) :
  updateChunkSize clientWidth (updateChunkSize clientWidth chunkSize)
  = updateChunkSize clientWidth chunkSize.
Proof. unfold updateChunkSize. by rewrite !chunkSizeUpdater_new. Qed.

(** When the size computed from the measured width is the size the state
    holds, the function given to [setChunkSize] hands back the state it was
    given. *)
Lemma updateChunkSize_same_value (clientWidth : option Z) (chunkSize : Z) :
  newChunkSize clientWidth = chunkSize →
  updateChunkSize clientWidth chunkSize = chunkSize.
Proof. intros <-. unfold updateChunkSize. by rewrite chunkSizeUpdater_new. Qed.

(** ** Colours of the first sequence *)

Lemma char_string_inj (c d : ascii) : char_string c = char_string d → c = d.
Proof. unfold char_string. congruence. Qed.

(** The keys of [COLOR_MAP] are the one-letter strings of the 20 letters. *)
Lemma COLOR_MAP_keys (c : ascii) :
  is_Some (COLOR_MAP !! char_string c) ↔ c ∈ amino_letters.
Proof.
  split.
  - intros Hsome. destruct (decide (c ∈ amino_letters)) as [|Hnot]; [done |].
    exfalso. unfold COLOR_MAP in Hsome.
    rewrite not_elem_of_list_to_map_1 in Hsome; [by destruct Hsome |].
    intros Hin. apply Hnot. simpl in Hin. unfold char_string in Hin.
    repeat (apply elem_of_cons in Hin as [Heq|Hin];
            [injection Heq as ->; apply (bool_decide_unpack _);
             vm_compute; exact I |]).
    by apply elem_of_nil in Hin.
  - intros Hin. unfold amino_letters in Hin. simpl in Hin.
    repeat (apply elem_of_cons in Hin as [->|Hin]; [by eexists |]).
    by apply elem_of_nil in Hin.
Qed.

(** C6. Each of the 20 letters has an entry in [COLOR_MAP], a hex colour,
    and is rendered on it; every other character, the gap [-] among them, is
    rendered on ["transparent"]. *)
Theorem seq1_backgroundColor_total :
  length amino_letters = 20%nat
  ∧ NoDup amino_letters
  ∧ Forall (λ c, ∃ color, COLOR_MAP !! char_string c = Some color
                          ∧ is_hex_color color = true
                          ∧ seq1_backgroundColor c = color) amino_letters
  ∧ (∀ c : ascii, c ∉ amino_letters →
       COLOR_MAP !! char_string c = None
       ∧ seq1_backgroundColor c = "transparent"%string)
  ∧ seq1_backgroundColor "-" = "transparent"%string.
Proof.
  split; [reflexivity |].
  split; [apply (bool_decide_unpack _); vm_compute; exact I |].
  split.
  { unfold amino_letters. simpl.
    repeat (apply Forall_cons; split;
            [eexists (seq1_backgroundColor _);
             repeat split; vm_compute; reflexivity |]).
    constructor. }
  split; [| reflexivity].
  intros c Hnot.
  assert (COLOR_MAP !! char_string c = None) as Hnone.
  { apply eq_None_not_Some. by rewrite COLOR_MAP_keys. }
  split; [done |]. unfold seq1_backgroundColor. by rewrite Hnone.
Qed.

(** ** Copying the selection *)

Lemma split_chars_replace_newlines (s : string) :
  split_chars (replace_newlines s) = filter (λ c, c ≠ LF) (split_chars s).
Proof.
  induction s as [|c s IH]; [done |]. simpl.
  destruct (Ascii.eqb_spec c LF) as [->|Hne].
  - rewrite filter_cons_False by (intros H; by apply H). exact IH.
  - rewrite filter_cons_True by done. simpl. f_equal. exact IH.
Qed.

Lemma replace_newlines_no_LF (s : string) :
  LF ∉ split_chars (replace_newlines s).
Proof.
  rewrite split_chars_replace_newlines. intros [Hne _]%list_elem_of_filter.
  by apply Hne.
Qed.

(** C7, as stated, fails: of the line-break characters the handler strips
    the line feed alone.  The selection ["A\r\nB"] makes it write ["A\rB"],
    a text with a carriage return in it; so the texts written are not free
    of line-break characters. *)
Lemma handleMouseUp_keeps_carriage_return :
  handleMouseUp (Some (String "A" (String CR (String LF "B"))))
  = [WriteText (String "A" (String CR "B")); OnCopy]
  ∧ ¬ (∀ selection data : string,
         WriteText data ∈ handleMouseUp (Some selection) →
         Forall (λ c, line_break c = false) (split_chars data)).
Proof.
  split; [reflexivity |]. intros Hall.
  specialize (Hall (String "A" (String CR (String LF "B")))
                (String "A" (String CR "B"))).
  assert (WriteText (String "A" (String CR "B"))
          ∈ handleMouseUp (Some (String "A" (String CR (String LF "B")))))
    as Hin by (change (handleMouseUp _) with
                 [WriteText (String "A" (String CR "B")); OnCopy];
               apply list_elem_of_here).
  apply Hall in Hin. simpl in Hin.
  apply Forall_cons in Hin as [_ [Hcr _]%Forall_cons]. discriminate Hcr.
Qed.

(** C7, amended to the line feed.  Whatever the selection, the handler
    either does nothing or writes to the clipboard, once, the selection
    without its line feeds: the text written holds no line feed, and holds
    the other characters of the selection, a carriage return among them, in
    their order.  Copying ["AC\nDE"] writes ["ACDE"]. *)
Theorem handleMouseUp_strips_line_feeds :
  (∀ selection : string,
      ∃ data : string,
        split_chars data = filter (λ c, c ≠ LF) (split_chars selection)
        ∧ (LF ∉ split_chars data)
        ∧ handleMouseUp (Some selection)
          = (if decide (data = ""%string) then []
             else [WriteText data; OnCopy]))
  ∧ handleMouseUp (Some (String "A" (String "C" (String LF "DE"))))
    = [WriteText "ACDE"; OnCopy].
Proof.
  split; [| reflexivity].
  intros selection. exists (replace_newlines selection).
  split; [apply split_chars_replace_newlines |].
  split; [apply replace_newlines_no_LF |].
  unfold handleMouseUp. simpl.
  destruct (replace_newlines selection); by case_decide.
Qed.



(** The handler does something only for a selection with a character other
    than the line feed. *)
Lemma handleMouseUp_writes (selection : string) :
  replace_newlines selection ≠ ""%string →
  handleMouseUp (Some selection)
  = [WriteText (replace_newlines selection); OnCopy].
Proof.
  intros Hne. unfold handleMouseUp. simpl.
  by destruct (replace_newlines selection).
Qed.

(** ** The example of the specification *)

Example chunks_ACDE :
  chunks 4 "ACDE" "ACDF" 2 = Some [("AC", "AC"); ("DE", "DF")]%string.
Proof. reflexivity. Qed.

Example render_ACDE :
  render [("AC", "AC"); ("DE", "DF")]%string
  = [([Span "#67E4A6" "A"; Span "#FFEA00" "C"],
      [Span "transparent" "A"; Span "transparent" "C"]);
     ([Span "#FC9CAC" "D"; Span "#FC9CAC" "E"],
      [Span "transparent" "D"; Span "#ffb6b6" "F"])].
Proof. reflexivity. Qed.

Example mismatch_flags_ACDE :
  map (MismatchFlag "ACDE" "ACDF") (seq 0 4) = [false; false; false; true].
Proof. reflexivity. Qed.

(** * Further properties of the code *)

(** ** The chunks, whatever the second string *)

Lemma join_chunks_snd_slice (seq1 seq2 : string) (n : Z) (m : nat) :
  0 < n →
  join (map (chunk_at seq1 seq2 n) (seq 0 m)).*2
  = slice seq2 0 (Z.of_nat m * n).
Proof.
  intros Hn. apply split_chars_inj.
  rewrite split_chars_join_snd, join_slices by done.
  rewrite split_chars_slice by nia. rewrite drop_0. f_equal. nia.
Qed.

(** X1. The loop looks at the length of [seq1] alone.  For a positive chunk
    size, whatever [seq2] is, it builds [ceil(seq1.length / chunkSize)]
    chunks, chunk [k] holds the slices of both strings from [k * chunkSize]
    to [k * chunkSize + chunkSize], the first components give back [seq1],
    and the second components give [seq2] cut off after as many code units
    as the chunks have room for. *)
Theorem chunks_any_second_string
    (seq1 seq2 : string) (chunkSize : Z) (fuel : nat) :
  0 < chunkSize →
  (String.length seq1 ≤ fuel)%nat →
  ∃ cs, chunks fuel seq1 seq2 chunkSize = Some cs
        ∧ Z.of_nat (length cs) = ceil_div (len seq1) chunkSize
        ∧ (∀ k : nat, (k < length cs)%nat →
             cs !! k
             = Some (slice seq1 (Z.of_nat k * chunkSize)
                       (Z.of_nat k * chunkSize + chunkSize),
                     slice seq2 (Z.of_nat k * chunkSize)
                       (Z.of_nat k * chunkSize + chunkSize)))
        ∧ join cs.*1 = seq1
        ∧ join cs.*2 = slice seq2 0 (Z.of_nat (length cs) * chunkSize).
Proof.
  intros Hn Hfuel.
  pose proof (chunk_count_le_length seq1 chunkSize Hn) as Hle.
  eexists. split; [apply chunks_closed_form; [done | lia] |].
  rewrite length_map, length_seq.
  split.
  { unfold chunk_count. apply Z2Nat.id, ceil_div_nonneg; [done |].
    unfold len; lia. }
  split; [intros k Hk; by apply lookup_map_seq |].
  split; [by apply join_chunks_fst | by apply join_chunks_snd_slice].
Qed.

Lemma chunks_any_second_string_witness :
  ∃ cs, chunks 3 "ACD" "ACDEFGH" 2 = Some cs
        ∧ Z.of_nat (length cs) = ceil_div (len "ACD") 2
        ∧ (∀ k : nat, (k < length cs)%nat →
             cs !! k
             = Some (slice "ACD" (Z.of_nat k * 2) (Z.of_nat k * 2 + 2),
                     slice "ACDEFGH" (Z.of_nat k * 2) (Z.of_nat k * 2 + 2)))
        ∧ join cs.*1 = "ACD"%string
        ∧ join cs.*2 = slice "ACDEFGH" 0 (Z.of_nat (length cs) * 2).
Proof.
  apply (chunks_any_second_string "ACD" "ACDEFGH" 2 3); [lia | simpl; lia].
Defined.

(** ** The width of the container and the end of the loop *)

Lemma updateChunkSize_div (w prev : Z) :
  updateChunkSize (Some w) prev = w / 19.
Proof.
  unfold updateChunkSize. by rewrite chunkSizeUpdater_new, newChunkSize_div.
Qed.

(** X2. After [updateChunkSize] has measured a container [w] pixels wide,
    the loop over a non-empty [seq1] is left, for some number of turns,
    exactly when [w] is at least 19, the width of one character cell. *)
Theorem loop_left_iff_one_cell_fits
    (seq1 seq2 : string) (w prev : Z) :
  seq1 ≠ ""%string →
  0 ≤ w →
  (∃ (fuel : nat) (cs : list (string * string)),
      chunks fuel seq1 seq2 (updateChunkSize (Some w) prev) = Some cs)
  ↔ 19 ≤ w.
Proof.
  intros Hne Hw. rewrite updateChunkSize_div. split.
  - intros (fuel & cs & Hcs).
    destruct (Z.le_gt_cases 19 w) as [|Hlt]; [done |].
    rewrite Z.div_small in Hcs by lia.
    unfold chunks, loop_init in Hcs.
    by rewrite loop_run_zero_step in Hcs.
  - intros Hge.
    assert (0 < w / 19) as Hn by (apply Z.div_str_pos; lia).
    exists (String.length seq1). eexists.
    apply chunks_closed_form; [done |]. by apply chunk_count_le_length.
Qed.

Lemma loop_left_iff_one_cell_fits_witness :
  (∃ (fuel : nat) (cs : list (string * string)),
      chunks fuel "ACDE" "ACDF" (updateChunkSize (Some 40) 20) = Some cs)
  ↔ 19 ≤ 40.
Proof.
  apply (loop_left_iff_one_cell_fits "ACDE" "ACDF" 40 20); [done | lia].
Defined.

Lemma ceil_div_antitone (a b b' : Z) :
  0 ≤ a → 0 < b → b ≤ b' → ceil_div a b' ≤ ceil_div a b.
Proof.
  intros Ha Hb Hb'.
  pose proof (ceil_div_bounds a b Hb). pose proof (ceil_div_bounds a b').
  pose proof (ceil_div_nonneg a b Hb Ha). nia.
Qed.

(** X3. A wider container never needs more chunks: for widths
    [19 ≤ w ≤ w'] the loop builds at most as many chunks at the chunk size
    of [w'] as at the chunk size of [w]. *)
Theorem wider_container_fewer_chunks
    (seq1 seq2 : string) (w w' : Z) (fuel : nat) :
  19 ≤ w → w ≤ w' →
  (String.length seq1 ≤ fuel)%nat →
  ∃ cs cs',
    chunks fuel seq1 seq2 (newChunkSize (Some w)) = Some cs
    ∧ chunks fuel seq1 seq2 (newChunkSize (Some w')) = Some cs'
    ∧ (length cs' ≤ length cs)%nat.
Proof.
  intros Hw Hw' Hfuel. rewrite !newChunkSize_div.
  assert (0 < w / 19) as Hn by (apply Z.div_str_pos; lia).
  assert (w / 19 ≤ w' / 19) as Hmono by (apply Z.div_le_mono; lia).
  assert (0 < w' / 19) as Hn' by lia.
  pose proof (chunk_count_le_length seq1 _ Hn).
  pose proof (chunk_count_le_length seq1 _ Hn').
  eexists _, _.
  split; [apply chunks_closed_form; [done | lia] |].
  split; [apply chunks_closed_form; [done | lia] |].
  rewrite !length_map, !length_seq. unfold chunk_count.
  apply Z2Nat.inj_le.
  - apply ceil_div_nonneg; [done | unfold len; lia].
  - apply ceil_div_nonneg; [done | unfold len; lia].
  - apply ceil_div_antitone; [unfold len; lia | done | done].
Qed.

Lemma wider_container_fewer_chunks_witness :
  ∃ cs cs',
    chunks 5 "ACDEG" "ACDFG" (newChunkSize (Some 40)) = Some cs
    ∧ chunks 5 "ACDEG" "ACDFG" (newChunkSize (Some 60)) = Some cs'
    ∧ (length cs' ≤ length cs)%nat.
Proof.
  apply (wider_container_fewer_chunks "ACDEG" "ACDFG" 40 60 5);
    [lia | lia | simpl; lia].
Defined.

(** ** What the rendered rows show *)

(** Cutting a list into pieces of [n] and putting the first [m] together. *)
Lemma concat_pieces {A} (l : list A) (n m : nat) :
  concat (map (λ k, take n (drop (k * n) l)) (seq 0 m)) = take (m * n) l.
Proof.
  induction m as [|m IH]; [done |].
  rewrite seq_S, map_app, concat_app, IH. simpl.
  rewrite app_nil_r, take_take_drop. f_equal. lia.
Qed.

Lemma concat_map_ext {A B} (f g : A → list B) (l : list A) :
  (∀ x, f x = g x) → concat (map f l) = concat (map g l).
Proof. intros Hfg. induction l as [|x l IH]; simpl; [done | by rewrite Hfg, IH]. Qed.

Section RenderFacts.

Variables seq1 seq2 : string.
Variable n : Z.
Hypothesis Hn : 0 < n.

(** The first row of chunk [k] is a piece of the row of the whole string. *)
Lemma render_s1_chunk (k : nat) :
  render_s1 (chunk_at seq1 seq2 n k).1
  = take (Z.to_nat n) (drop (k * Z.to_nat n) (render_s1 seq1)).
Proof.
  unfold render_s1, chunk_at. simpl. rewrite split_chars_chunk_slice by done.
  change (map ?f ?l) with (f <$> l). by rewrite fmap_take, fmap_drop.
Qed.

(** And so is the second row, mismatches included. *)
Lemma render_s2_chunk (k : nat) :
  render_s2 (chunk_at seq1 seq2 n k).1 (chunk_at seq1 seq2 n k).2
  = take (Z.to_nat n) (drop (k * Z.to_nat n) (render_s2 seq1 seq2)).
Proof.
  apply list_eq. intros j. unfold render_s2, chunk_at. simpl.
  rewrite list_lookup_imap, split_chars_chunk_slice by done.
  destruct (decide (j < Z.to_nat n)%nat) as [Hj|Hj].
  - rewrite !lookup_take_lt, !lookup_drop, list_lookup_imap by done.
    destruct (split_chars seq2 !! (k * Z.to_nat n + j)%nat); [| done].
    simpl. do 2 f_equal. unfold seq2_backgroundColor, mismatch.
    by rewrite !at_chunk_slice by lia.
  - by rewrite !lookup_take_ge by lia.
Qed.

Lemma render_chunks_fst (l : list nat) :
  concat (render (map (chunk_at seq1 seq2 n) l)).*1
  = concat (map (λ k, take (Z.to_nat n)
                        (drop (k * Z.to_nat n) (render_s1 seq1))) l).
Proof.
  induction l as [|k l IH]; [done |].
  simpl. rewrite <- render_s1_chunk. f_equal. exact IH.
Qed.

Lemma render_chunks_snd (l : list nat) :
  concat (render (map (chunk_at seq1 seq2 n) l)).*2
  = concat (map (λ k, take (Z.to_nat n)
                        (drop (k * Z.to_nat n) (render_s2 seq1 seq2))) l).
Proof.
  induction l as [|k l IH]; [done |].
  simpl. rewrite <- render_s2_chunk. f_equal. exact IH.
Qed.

End RenderFacts.

Lemma length_render_s1 (s1 : string) :
  length (render_s1 s1) = String.length s1.
Proof. unfold render_s1. by rewrite length_map, length_split_chars. Qed.

Lemma length_render_s2 (s1 s2 : string) :
  length (render_s2 s1 s2) = String.length s2.
Proof. unfold render_s2. by rewrite length_imap, length_split_chars. Qed.

(** The rows of all chunks, one after the other, are the rows of the two
    strings rendered as a whole. *)
Lemma render_chunks_flat (seq1 seq2 : string) (n : Z) :
  0 < n → String.length seq1 = String.length seq2 →
  let cs := map (chunk_at seq1 seq2 n) (seq 0 (chunk_count seq1 n)) in
  concat (render cs).*1 = render_s1 seq1
  ∧ concat (render cs).*2 = render_s2 seq1 seq2.
Proof.
  intros Hn Hlen cs. subst cs.
  pose proof (chunk_count_bounds seq1 n Hn) as Hc. unfold len in Hc.
  rewrite render_chunks_fst, render_chunks_snd, !concat_pieces by done.
  split; apply take_ge.
  - rewrite length_render_s1. nia.
  - rewrite length_render_s2, <- Hlen. nia.
Qed.

(** X4. Chunking only wraps the display.  For two strings of equal length
    and a positive chunk size, the first rows of all chunks put end to end
    are the spans of [seq1] rendered in one piece, and the second rows put
    end to end are the spans of [seq2] rendered in one piece against
    [seq1]: every character is shown once, in order, on the colour it would
    have without chunks. *)
Theorem render_unwrapped
    (seq1 seq2 : string) (chunkSize : Z) (fuel : nat) :
  String.length seq1 = String.length seq2 →
  0 < chunkSize →
  (String.length seq1 ≤ fuel)%nat →
  ∃ cs, chunks fuel seq1 seq2 chunkSize = Some cs
        ∧ concat (render cs).*1 = render_s1 seq1
        ∧ concat (render cs).*2 = render_s2 seq1 seq2.
Proof.
  intros Hlen Hn Hfuel.
  pose proof (chunk_count_le_length seq1 chunkSize Hn) as Hle.
  eexists. split; [apply chunks_closed_form; [done | lia] |].
  by apply render_chunks_flat.
Qed.

Lemma render_unwrapped_witness :
  ∃ cs, chunks 5 "ACDEG" "ACDFG" 2 = Some cs
        ∧ concat (render cs).*1 = render_s1 "ACDEG"
        ∧ concat (render cs).*2 = render_s2 "ACDEG" "ACDFG".
Proof.
  apply (render_unwrapped "ACDEG" "ACDFG" 2 5);
    [reflexivity | lia | simpl; lia].
Defined.

(** ** Highlights *)

(** Rendered in one piece, [seq2] carries no highlight exactly when it is
    [seq1]. *)
Lemma render_s2_transparent (seq1 seq2 : string) :
  String.length seq1 = String.length seq2 →
  Forall (λ sp, backgroundColor sp = "transparent"%string)
    (render_s2 seq1 seq2)
  ↔ seq1 = seq2.
Proof.
  intros Hlen. rewrite Forall_lookup. unfold render_s2. split.
  - intros Hall. apply split_chars_inj, list_eq. intros i.
    destruct (split_chars seq2 !! i) as [c|] eqn:Hc.
    + specialize (Hall i (Span (seq2_backgroundColor seq1 seq2 i) c)).
      rewrite list_lookup_imap, Hc in Hall. specialize (Hall eq_refl).
      simpl in Hall. unfold seq2_backgroundColor, mismatch in Hall.
      case_bool_decide as Hne; [discriminate Hall |].
      rewrite <- Hc, <- !at_split_chars.
      by destruct (decide (at_ seq2 i = at_ seq1 i)).
    + apply lookup_ge_None in Hc. apply lookup_ge_None.
      rewrite length_split_chars in *. lia.
  - intros -> i sp Hsp. rewrite list_lookup_imap in Hsp.
    apply fmap_Some in Hsp as (c & _ & ->). simpl.
    unfold seq2_backgroundColor, mismatch.
    rewrite bool_decide_eq_false_2; [done |]. intros Hne. by apply Hne.
Qed.

(** X5. For two strings of equal length and a positive chunk size, no span
    of a second row is highlighted exactly when the two strings are the
    same: equal sequences show no mismatch colour, and a difference at any
    place shows one in some chunk. *)
Theorem no_highlight_iff_equal
    (seq1 seq2 : string) (chunkSize : Z) (fuel : nat) :
  String.length seq1 = String.length seq2 →
  0 < chunkSize →
  (String.length seq1 ≤ fuel)%nat →
  ∃ cs, chunks fuel seq1 seq2 chunkSize = Some cs
        ∧ (Forall (λ row : list span * list span,
                     Forall (λ sp, backgroundColor sp = "transparent"%string)
                       row.2)
             (render cs)
           ↔ seq1 = seq2).
Proof.
  intros Hlen Hn Hfuel.
  pose proof (chunk_count_le_length seq1 chunkSize Hn) as Hle.
  eexists. split; [apply chunks_closed_form; [done | lia] |].
  rewrite <- (render_s2_transparent seq1 seq2 Hlen).
  destruct (render_chunks_flat seq1 seq2 chunkSize Hn Hlen) as [_ <-].
  rewrite Forall_concat, Forall_fmap. done.
Qed.

Lemma no_highlight_iff_equal_witness :
  ∃ cs, chunks 4 "ACDE" "ACDF" 2 = Some cs
        ∧ (Forall (λ row : list span * list span,
                     Forall (λ sp, backgroundColor sp = "transparent"%string)
                       row.2)
             (render cs)
           ↔ "ACDE"%string = "ACDF"%string).
Proof.
  apply (no_highlight_iff_equal "ACDE" "ACDF" 2 4);
    [reflexivity | lia | simpl; lia].
Defined.

(** X6. For two strings of equal length and a positive chunk size, the two
    rows of every chunk have the same number of spans, so the columns line
    up; no row is empty and none has more than [chunkSize] spans. *)
Theorem rendered_rows_shape
    (seq1 seq2 : string) (chunkSize : Z) (fuel : nat) :
  String.length seq1 = String.length seq2 →
  0 < chunkSize →
  (String.length seq1 ≤ fuel)%nat →
  ∃ cs, chunks fuel seq1 seq2 chunkSize = Some cs
        ∧ Forall (λ row : list span * list span,
                    length row.1 = length row.2
                    ∧ 0 < Z.of_nat (length row.1) ≤ chunkSize)
            (render cs).
Proof.
  intros Hlen Hn Hfuel.
  pose proof (chunk_count_le_length seq1 chunkSize Hn) as Hle.
  pose proof (chunk_count_bounds seq1 chunkSize Hn) as Hc.
  assert (len seq2 = len seq1) as Hlen' by (unfold len; lia).
  eexists. split; [apply chunks_closed_form; [done | lia] |].
  unfold render. change (map ?f ?l) with (f <$> l).
  rewrite !Forall_fmap. apply Forall_seq. intros k Hk. simpl.
  rewrite length_render_s1, length_render_s2.
  pose proof (len_chunk_slice chunkSize Hn seq1 k) as H1.
  pose proof (len_chunk_slice chunkSize Hn seq2 k) as H2.
  unfold len in *. nia.
Qed.

Lemma rendered_rows_shape_witness :
  ∃ cs, chunks 5 "ACDEG" "ACDFG" 2 = Some cs
        ∧ Forall (λ row : list span * list span,
                    length row.1 = length row.2
                    ∧ 0 < Z.of_nat (length row.1) ≤ 2)
            (render cs).
Proof.
  apply (rendered_rows_shape "ACDEG" "ACDFG" 2 5);
    [reflexivity | lia | simpl; lia].
Defined.

(** ** Line feeds in the selection *)

Lemma replace_newlines_append (s t : string) :
  replace_newlines (String.append s t)
  = String.append (replace_newlines s) (replace_newlines t).
Proof.
  induction s as [|c s IH]; [done |]. simpl.
  destruct (Ascii.eqb c LF); simpl; by rewrite IH.
Qed.

Lemma replace_newlines_id (s : string) :
  LF ∉ split_chars s → replace_newlines s = s.
Proof.
  induction s as [|c s IH]; [done |]. simpl. intros Hnot.
  apply not_elem_of_cons in Hnot as [Hc Hs].
  destruct (Ascii.eqb_spec c LF) as [->|_]; [done |]. by rewrite IH.
Qed.

(** X7. Line feeds are all the handler overlooks: two selections make it do
    the same (write the same text, or nothing) exactly when they hold the
    same characters other than line feeds, in the same order.  So wherever
    the wrapping of the rows puts line feeds into a selection, what is
    written is the same. *)
Theorem handleMouseUp_same_effects (selection selection' : string) :
  handleMouseUp (Some selection) = handleMouseUp (Some selection')
  ↔ filter (λ c, c ≠ LF) (split_chars selection)
    = filter (λ c, c ≠ LF) (split_chars selection').
Proof.
  rewrite <- !split_chars_replace_newlines. unfold handleMouseUp. simpl.
  split.
  - intros Heq. f_equal.
    destruct (replace_newlines selection) as [|c s],
      (replace_newlines selection') as [|c' s'];
      simpl in Heq; [done | discriminate Heq | discriminate Heq |].
    by injection Heq as -> ->.
  - intros Heq%split_chars_inj. by rewrite Heq.
Qed.

Lemma length_replace_newlines (s : string) :
  (String.length (replace_newlines s) ≤ String.length s)%nat.
Proof.
  induction s as [|c s IH]; [done |]. simpl.
  destruct (Ascii.eqb c LF); simpl; lia.
Qed.

(** X8. What the handler writes is never longer than the selection, and
    a selection of just that text makes it write the same text again. *)
Theorem handleMouseUp_written_text (selection data : string) :
  handleMouseUp (Some selection) = [WriteText data; OnCopy] →
  (String.length data ≤ String.length selection)%nat
  ∧ handleMouseUp (Some data) = [WriteText data; OnCopy].
Proof.
  unfold handleMouseUp. simpl. intros Hw.
  destruct (truthy (replace_newlines selection)) eqn:Ht; [| discriminate Hw].
  injection Hw as <-. split; [apply length_replace_newlines |].
  rewrite replace_newlines_id by apply replace_newlines_no_LF.
  by rewrite Ht.
Qed.

Lemma handleMouseUp_written_text_witness :
  (String.length "ACDE"
   ≤ String.length (String "A" (String "C" (String LF "DE"))))%nat
  ∧ handleMouseUp (Some "ACDE"%string) = [WriteText "ACDE"; OnCopy].
Proof.
  apply (handleMouseUp_written_text
           (String "A" (String "C" (String LF "DE"))) "ACDE").
  reflexivity.
Defined.

(** ** The form: what reaches [AlignmentBlock] *)

Lemma upper_char_idem (c : ascii) : upper_char (upper_char c) = upper_char c.
Proof. destruct c as [[] [] [] [] [] [] [] []]; reflexivity. Qed.

Lemma split_chars_toUpperCase (s : string) :
  split_chars (toUpperCase s) = upper_char <$> split_chars s.
Proof. induction s as [|c s IH]; [done |]. simpl. f_equal. exact IH. Qed.

Lemma length_toUpperCase (s : string) :
  String.length (toUpperCase s) = String.length s.
Proof. induction s as [|c s IH]; [done |]. simpl. by rewrite IH. Qed.

Lemma toUpperCase_idem (s : string) :
  toUpperCase (toUpperCase s) = toUpperCase s.
Proof.
  induction s as [|c s IH]; [done |]. simpl. by rewrite upper_char_idem, IH.
Qed.

Lemma truthy_toUpperCase (s : string) : truthy (toUpperCase s) = truthy s.
Proof. by destruct s. Qed.

Lemma truthy_true (s : string) : truthy s = true ↔ s ≠ ""%string.
Proof. by destruct s. Qed.

Lemma AMINO_REGEX_test_toUpperCase (s : string) :
  AMINO_REGEX_test (toUpperCase s) = AMINO_REGEX_test s.
Proof.
  unfold AMINO_REGEX_test. rewrite truthy_toUpperCase. f_equal.
  induction s as [|c s IH]; [done |]. simpl.
  unfold class_matches at 1. rewrite upper_char_idem. by rewrite IH.
Qed.

(** The code units of a valid entry, in upper case, are of the class. *)
Lemma field_valid_class (s : string) :
  field_valid s = true →
  Forall (λ c, c ∈ amino_class) (split_chars (toUpperCase s)).
Proof.
  unfold field_valid, AMINO_REGEX_test.
  intros [_ [_ Hall%Is_true_true%forallb_True]%andb_prop]%andb_prop.
  rewrite split_chars_toUpperCase, Forall_fmap.
  eapply Forall_impl; [exact Hall |]. intros c Hc. simpl.
  by apply bool_decide_unpack in Hc.
Qed.

Lemma amino_class_no_LF : LF ∉ amino_class.
Proof. apply (bool_decide_unpack _). vm_compute. exact I. Qed.

(** X9. The entry of a field that passes its rules stays valid in upper
    case, keeps its length, has only code units of the class
    [ARNDCEQGHILKMFPSTWYV-] once in upper case, and is not changed by a
    second [toUpperCase]. *)
Theorem valid_entry_upper_case (value : string) :
  field_valid value = true →
  field_valid (toUpperCase value) = true
  ∧ String.length (toUpperCase value) = String.length value
  ∧ Forall (λ c, c ∈ amino_class) (split_chars (toUpperCase value))
  ∧ toUpperCase (toUpperCase value) = toUpperCase value.
Proof.
  intros Hvalid. split.
  - unfold field_valid.
    by rewrite AMINO_REGEX_test_toUpperCase, truthy_toUpperCase.
  - split; [apply length_toUpperCase |].
    split; [by apply field_valid_class | apply toUpperCase_idem].
Qed.

Lemma valid_entry_upper_case_witness :
  field_valid (toUpperCase "acd-Ef") = true
  ∧ String.length (toUpperCase "acd-Ef") = String.length "acd-Ef"
  ∧ Forall (λ c, c ∈ amino_class) (split_chars (toUpperCase "acd-Ef"))
  ∧ toUpperCase (toUpperCase "acd-Ef") = toUpperCase "acd-Ef".
Proof. apply (valid_entry_upper_case "acd-Ef"). reflexivity. Defined.

(** X10. When the button is enabled and both fields pass their rules, the
    pair [onSubmit] stores is what [AlignmentBlock] counts on: two non-empty
    strings of the same length, made of code units of the class, with no
    line feed in them. *)
Theorem onSubmit_pair (seq1 seq2 : string) :
  disabled seq1 seq2 = false →
  field_valid seq1 = true →
  field_valid seq2 = true →
  let pair := onSubmit seq1 seq2 in
  String.length (aligned_seq1 pair) = String.length (aligned_seq2 pair)
  ∧ aligned_seq1 pair ≠ ""%string
  ∧ aligned_seq2 pair ≠ ""%string
  ∧ Forall (λ c, c ∈ amino_class) (split_chars (aligned_seq1 pair))
  ∧ Forall (λ c, c ∈ amino_class) (split_chars (aligned_seq2 pair))
  ∧ (LF ∉ split_chars (aligned_seq1 pair))
  ∧ (LF ∉ split_chars (aligned_seq2 pair)).
Proof.
  intros Hen Hv1 Hv2 pair. subst pair. simpl.
  unfold disabled, sameLength, len in Hen.
  apply orb_false_elim in Hen as [[Hsame Hne1]%orb_false_elim Hne2].
  apply negb_false_iff in Hsame, Hne1, Hne2. apply Z.eqb_eq in Hsame.
  pose proof (field_valid_class seq1 Hv1) as Hc1.
  pose proof (field_valid_class seq2 Hv2) as Hc2.
  assert (∀ l : list ascii, Forall (λ c, c ∈ amino_class) l → LF ∉ l) as Hlf.
  { intros l Hl Hin. rewrite Forall_forall in Hl.
    by apply amino_class_no_LF, Hl. }
  split; [rewrite !length_toUpperCase; lia |].
  split; [apply truthy_true; by rewrite truthy_toUpperCase |].
  split; [apply truthy_true; by rewrite truthy_toUpperCase |].
  split; [done |]. split; [done |]. split; by apply Hlf.
Qed.

Lemma onSubmit_pair_witness :
  let pair := onSubmit "acde" "AC-f" in
  String.length (aligned_seq1 pair) = String.length (aligned_seq2 pair)
  ∧ aligned_seq1 pair ≠ ""%string
  ∧ aligned_seq2 pair ≠ ""%string
  ∧ Forall (λ c, c ∈ amino_class) (split_chars (aligned_seq1 pair))
  ∧ Forall (λ c, c ∈ amino_class) (split_chars (aligned_seq2 pair))
  ∧ (LF ∉ split_chars (aligned_seq1 pair))
  ∧ (LF ∉ split_chars (aligned_seq2 pair)).
Proof.
  apply (onSubmit_pair "acde" "AC-f"); reflexivity.
Defined.

(** X11. In the first row of a valid entry in upper case only the gap is
    left without colour: the span of [-] is on ["transparent"], and the span
    of every other character is on the hex colour [COLOR_MAP] has for that
    letter. *)
Theorem valid_entry_colours (value : string) :
  field_valid value = true →
  Forall (λ sp,
            (text sp = "-"%char
             ∧ backgroundColor sp = "transparent"%string)
            ∨ (text sp ∈ amino_letters
               ∧ is_hex_color (backgroundColor sp) = true
               ∧ COLOR_MAP !! char_string (text sp)
                 = Some (backgroundColor sp)))
    (render_s1 (toUpperCase value)).
Proof.
  intros Hvalid. unfold render_s1. change (map ?f ?l) with (f <$> l).
  rewrite Forall_fmap.
  eapply Forall_impl; [by apply field_valid_class |].
  intros c Hc. unfold amino_class in Hc. simpl in Hc. simpl.
  repeat (apply elem_of_cons in Hc as [->|Hc];
          [first [ left; split; reflexivity
                 | right; split;
                   [apply (bool_decide_unpack _); vm_compute; exact I
                   | split; vm_compute; reflexivity] ] |]).
  by apply elem_of_nil in Hc.
Qed.

Lemma valid_entry_colours_witness :
  Forall (λ sp,
            (text sp = "-"%char
             ∧ backgroundColor sp = "transparent"%string)
            ∨ (text sp ∈ amino_letters
               ∧ is_hex_color (backgroundColor sp) = true
               ∧ COLOR_MAP !! char_string (text sp)
                 = Some (backgroundColor sp)))
    (render_s1 (toUpperCase "ac-w")).
Proof. apply (valid_entry_colours "ac-w"). reflexivity. Defined.

(** ** The state after [updateChunkSize] *)

(** [updateChunkSize] forgets the chunk size the state held, so a second
    call with the same measure changes nothing; a ref that is not attached
    counts as width 0. *)
Lemma updateChunkSize_forgets_state
    (clientWidth : option Z) (chunkSize chunkSize' : Z) :
  updateChunkSize clientWidth chunkSize
  = updateChunkSize clientWidth chunkSize'
  ∧ updateChunkSize clientWidth (updateChunkSize clientWidth chunkSize)
    = updateChunkSize clientWidth chunkSize
  ∧ updateChunkSize None chunkSize = updateChunkSize (Some 0) chunkSize.
Proof.
  unfold updateChunkSize. rewrite !chunkSizeUpdater_new. done.
Qed.

Lemma newChunkSize_nonneg (clientWidth : option Z) :
  (∀ w, clientWidth = Some w → 0 ≤ w) → 0 ≤ newChunkSize clientWidth.
Proof.
  intros Hw. destruct clientWidth as [w|]; [| done].
  rewrite newChunkSize_div. apply Z.div_pos; [by apply Hw | lia].
Qed.

(** X12. Whatever run of calls of [updateChunkSize] the component has seen,
    each with a width that is not negative or with no element to measure,
    the chunk size in the state is [floor(width / 19)] for the last measure,
    or the initial 20 when there was none; so it is never negative, and the
    step of the loop never goes backwards. *)
Theorem chunk_size_after_updates (measures : list (option Z)) :
  Forall (λ clientWidth, ∀ w, clientWidth = Some w → 0 ≤ w) measures →
  let chunkSize :=
    foldl (λ size clientWidth, updateChunkSize clientWidth size)
      initialChunkSize measures in
  0 ≤ chunkSize
  ∧ chunkSize = match last measures with
                | Some clientWidth => newChunkSize clientWidth
                | None => initialChunkSize
                end.
Proof.
  intros Hall. simpl.
  destruct measures as [|m ms _] using rev_ind; [done |].
  rewrite foldl_snoc, last_snoc. unfold updateChunkSize.
  rewrite chunkSizeUpdater_new. split; [| done].
  apply newChunkSize_nonneg. by apply Forall_app in Hall as [_ [? _]%Forall_cons].
Qed.

Lemma chunk_size_after_updates_witness :
  let chunkSize :=
    foldl (λ size clientWidth, updateChunkSize clientWidth size)
      initialChunkSize [Some 400; None; Some 57] in
  0 ≤ chunkSize
  ∧ chunkSize = match last [Some 400; None; Some 57] with
                | Some clientWidth => newChunkSize clientWidth
                | None => initialChunkSize
                end.
Proof.
  apply (chunk_size_after_updates [Some 400; None; Some 57]).
  repeat constructor; intros w Hw; inversion Hw; lia.
Defined.
